(** * loss_landscape_anim: dimensionality reduction, loss grid and driver

    A shallow embedding of [src/loss_landscape_anim/main.py] together with the
    two components it calls, [DimReduction] and [LossGrid]
    ([loss_landscape_anim.loss_landscape]), whose source is not part of the
    tree: those two are modelled from the specification.

    Real numbers stand for the floats of numpy/torch; where a float division
    can produce a non-finite value the model says so explicitly ([fnum]). *)

From Stdlib Require Import Strings.String.
From Stdlib Require Import Reals Lra Psatz List ZArith Bool.
Import ListNotations.
Open Scope R_scope.

(* ------------------------------------------------------------------------- *)
(** ** Data model *)

(** A flattened parameter vector. *)
Definition Vec := list R.

(** One record of [model.optim_path]: [{"flat_w", "loss", "accuracy"}]. *)
Record Step := mkStep { flat_w : Vec; loss : R; accuracy : R }.

(** Results of float divisions: a finite value, an infinity or a NaN. *)
Inductive fnum := Fin (r : R) | Inf | NaN.

(** Float division [a / b] as numpy evaluates it on non-negative operands. *)
Definition fdiv (a b : R) : fnum :=
  if Req_dec_T b 0 then (if Req_dec_T a 0 then NaN else Inf) else Fin (a / b).

Fixpoint dot (u v : Vec) : R :=
  match u, v with
  | a :: u', b :: v' => a * b + dot u' v'
  | _, _ => 0
  end.

(** Element-wise [u - v] (numpy broadcasting of equal-length rows). *)
Fixpoint vsub (u v : Vec) : Vec :=
  match u, v with
  | a :: u', b :: v' => (a - b) :: vsub u' v'
  | _, _ => []
  end.

Fixpoint vadd (u v : Vec) : Vec :=
  match u, v with
  | a :: u', b :: v' => (a + b) :: vadd u' v'
  | _, _ => []
  end.

Definition vscale (c : R) (v : Vec) : Vec := map (fun x => c * x) v.

Definition norm (v : Vec) : R := sqrt (dot v v).

Definition normalize (v : Vec) : Vec := map (fun x => x / norm v) v.

Definition sq (x : R) : R := x * x.

Definition sum (l : list R) : R := fold_right Rplus 0 l.


(* ------------------------------------------------------------------------- *)
(** ** Dimension Reducer ([DimReduction.reduce])

    Modelled from the spec: [DimReduction] of [loss_landscape_anim.loss_landscape]
    is not in the tree; the definitions below follow Section 4.1 of the spec. *)

Inductive Method := Pca | Random | Custom.

Inductive ReduceError :=
  | EmptyTrajectoryError
  | InsufficientStepsError
  | DirectionShapeMismatch.

Record Reduced := mkReduced {
  path_2d : list (R * R);
  reduced_dirs : Vec * Vec;
  pcvariances : option (fnum * fnum)
}.

(** Output of a singular value decomposition of the centered T x D matrix:
    all singular values (largest first) and the two leading right-singular
    vectors. *)
Record SVD := mkSVD { sing_vals : list R; right_vecs : Vec * Vec }.



(** [pcvariances]: the two leading squared singular values over the sum of
    all squared singular values. *)
Definition pc_variances (s : list R) : fnum * fnum :=
  let total := sum (map sq s) in
  (fdiv (sq (nth 0 s 0)) total, fdiv (sq (nth 1 s 0)) total).

(** Center every row by the ReferencePoint (last row). *)
Definition center (traj : list Vec) (ref : Vec) : list Vec :=
  map (fun w => vsub w ref) traj.

(** Project centered rows onto [(d1, d2)] by dot products. *)
Definition project (centered : list Vec) (d1 d2 : Vec) : list (R * R) :=
  map (fun c => (dot c d1, dot c d2)) centered.

(** The random number generator: a linear congruential generator on the
    state [g]; each draw yields a float in [-1/2, 1/2). *)
Definition rng_modulus : Z := 2147483648%Z.

Definition rng_next (g : Z) : Z := ((1103515245 * g + 12345) mod rng_modulus)%Z.

Definition rng_float (g : Z) : R := IZR g / IZR rng_modulus - / 2.

Fixpoint draw_vec (n : nat) (g : Z) : Vec * Z :=
  match n with
  | O => ([], g)
  | S n' =>
      let g1 := rng_next g in
      let '(v, g2) := draw_vec n' g1 in
      (rng_float g1 :: v, g2)
  end.

(** Two random D-vectors, Gram-Schmidt on the second, both normalised. *)
Definition random_dirs (D : nat) (g : Z) : (Vec * Vec) * Z :=
  let '(r1, g1) := draw_vec D g in
  let '(r2, g2) := draw_vec D g1 in
  let u1 := normalize r1 in
  let w := vsub r2 (vscale (dot r2 u1) u1) in
  ((u1, normalize w), g2).

(** [reduce]: the global RNG state [g] is threaded through; the random method
    draws from the supplied seed when there is one (leaving the global state
    alone) and from the global state otherwise. *)
Definition reduce (svd : list Vec -> SVD) (g : Z) (traj : list Vec) (m : Method)
    (custom_directions : option (list Vec)) (seed : option Z)
    : (Reduced + ReduceError) * Z :=
  match traj with
  | [] => (inr EmptyTrajectoryError, g)
  | w0 :: _ =>
      let D := length w0 in
      let ref := last traj w0 in
      let centered := center traj ref in
      match m with
      | Custom =>
          match custom_directions with
          | Some [d1; d2] =>
              if (Nat.eqb (length d1) D && Nat.eqb (length d2) D)%bool
              then (inl (mkReduced (project centered d1 d2) (d1, d2) None), g)
              else (inr DirectionShapeMismatch, g)
          | _ => (inr DirectionShapeMismatch, g)
          end
      | Pca =>
          if Nat.ltb (length traj) 2 then (inr InsufficientStepsError, g)
          else
            let r := svd centered in
            let '(d1, d2) := right_vecs r in
            (inl (mkReduced (project centered d1 d2) (d1, d2)
                    (Some (pc_variances (sing_vals r)))), g)
      | Random =>
          if Nat.ltb (length traj) 2 then (inr InsufficientStepsError, g)
          else
            let g0 := match seed with Some s => s | None => g end in
            let '((d1, d2), g1) := random_dirs D g0 in
            let g' := match seed with Some _ => g | None => g1 end in
            (inl (mkReduced (project centered d1 d2) (d1, d2) None), g')
      end
  end.

(* ------------------------------------------------------------------------- *)
(** ** Loss Grid Builder ([LossGrid])

    Modelled from the spec: [LossGrid] of [loss_landscape_anim.loss_landscape]
    is not in the tree; [build] follows Section 4.2 of the spec, called with the
    arguments [main.py] passes ([optim_path], [model], [data], [path_2d],
    [directions]).  The model object carries its recorded trajectory
    ([model.optim_path]); forward evaluation at a parameter vector is the
    external collaborator [evaluate] ([None]: the forward pass failed). *)

Record Model := mkModel { model_params : Vec; model_optim_path : list Step }.

Inductive GridError :=
  | DirectionDimensionMismatch
  | EvaluationError
  | EmptyPathError.  (* numpy min/max or [-1] indexing of an empty sequence *)

(** Visualisation tuning: resolution R, relative margin, the absolute margin
    used when the path has no extent along an axis, and the log epsilon. *)
Record GridConfig := mkGridConfig {
  resolution : nat; margin : R; fallback_margin : R; log_eps : R }.

Record LossGridOut := mkLossGrid {
  coords : list (list (R * R));
  loss_values_log_2d : list (list R);
  true_optim_point : R * R;
  loss_min : R
}.

Definition list_min (x0 : R) (l : list R) : R := fold_left Rmin l x0.
Definition list_max (x0 : R) (l : list R) : R := fold_left Rmax l x0.

(** [min - margin, max + margin] along one axis of the path. *)
Definition axis_bounds (cfg : GridConfig) (x0 : R) (xs : list R) : R * R :=
  let lo := list_min x0 xs in
  let hi := list_max x0 xs in
  let m := if Rlt_dec 0 (hi - lo) then margin cfg * (hi - lo)
           else fallback_margin cfg in
  (lo - m, hi + m).

(** [np.linspace(a, b, n)]. *)
Definition linspace (a b : R) (n : nat) : list R :=
  match n with
  | O => []
  | S O => [a]
  | S k => map (fun i => a + INR i * ((b - a) / INR k)) (seq 0 n)
  end.

(** The parameter vector [ref + x * dir1 + y * dir2] of a grid point. *)
Definition grid_point (ref d1 d2 : Vec) (c : R * R) : Vec :=
  vadd (vadd ref (vscale (fst c) d1)) (vscale (snd c) d2).

(** Map with early exit on the first error. *)
Fixpoint map_err {A B E : Type} (f : A -> B + E) (l : list A) : list B + E :=
  match l with
  | [] => inl []
  | x :: l' =>
      match f x with
      | inr e => inr e
      | inl y => match map_err f l' with inr e => inr e | inl ys => inl (y :: ys) end
      end
  end.

Definition log_loss_at {Data : Type} (evaluate : Vec -> Data -> option R)
    (cfg : GridConfig) (data : Data) (ref d1 d2 : Vec) (c : R * R) : R + GridError :=
  match evaluate (grid_point ref d1 d2 c) data with
  | Some l => inl (ln (l + log_eps cfg))
  | None => inr EvaluationError
  end.

Definition build {Data : Type} (evaluate : Vec -> Data -> option R)
    (cfg : GridConfig) (optim_path : list Vec) (model : Model) (data : Data)
    (path : list (R * R)) (directions : Vec * Vec) : LossGridOut + GridError :=
  let '(d1, d2) := directions in
  if negb (Nat.eqb (length d1) (length (model_params model))
           && Nat.eqb (length d2) (length (model_params model)))%bool
  then inr DirectionDimensionMismatch
  else
    match path, optim_path, model_optim_path model with
    | p0 :: _, w0 :: _, st0 :: _ =>
        let ref := last optim_path w0 in
        let '(x_min, x_max) := axis_bounds cfg (fst p0) (map fst path) in
        let '(y_min, y_max) := axis_bounds cfg (snd p0) (map snd path) in
        let xs := linspace x_min x_max (resolution cfg) in
        let ys := linspace y_min y_max (resolution cfg) in
        let cs := map (fun y => map (fun x => (x, y)) xs) ys in
        match map_err (map_err (log_loss_at evaluate cfg data ref d1 d2)) cs with
        | inr e => inr e
        | inl lv =>
            inl (mkLossGrid cs lv (last path p0)
                   (loss (last (model_optim_path model) st0)))
        end
    | _, _, _ => inr EmptyPathError
    end.

(* ------------------------------------------------------------------------- *)
(** ** The driver [loss_landscape_anim] of [main.py]

    Training, sampling, model construction and the SVD are external
    collaborators; the global torch RNG is the state [rng], files written by
    [torch.save] are a map from paths to models, and the calls with an
    observable effect are logged as events. *)

Section Driver.

Variable Data : Type.

Record DataModule := mkDataModule {
  input_dim : nat; num_classes : nat; dataset_tensors : Data }.

Record Env := mkEnv {
  spirals_datamodule : DataModule;
  (** [MLP(input_dim, num_classes, learning_rate=5e-3, optimizer, gpus)];
      weight initialisation draws from the RNG. *)
  new_mlp : DataModule -> String.string -> nat -> Z -> Model * Z;
  (** [trainer.fit(model, train_loader)] for [n_epochs]. *)
  fit : Model -> DataModule -> nat -> nat -> Z -> Model * Z;
  sample_frames : list Step -> nat -> list Step;
  svd : list Vec -> SVD;
  evaluate : Vec -> Data -> option R;
  grid_config : GridConfig
}.

Record Args := mkArgs {
  n_epochs : nat;
  datamodule : option DataModule;
  model : option Model;
  optimizer : String.string;
  reduction_method : Method;
  custom_directions : option (list Vec);
  model_dirpath : String.string;
  model_filename : String.string;
  gpus : nat;
  load_model : bool;
  make_plot : bool;
  output_to_file : bool;
  output_filename : String.string;
  giffps : nat;
  sampling : bool;
  n_frames : nat;
  seed : option Z;
  return_data : bool
}.

Inductive Event :=
  | ManualSeed (s : Z)
  | Saved (file_path : String.string)
  | DimReductionInit (m : Method) (dirs : option (list Vec)) (s : option Z)
  | AnimateContour (param_steps : list (R * R)) (loss_steps acc_steps : list R)
      (grid : LossGridOut) (pcv : option (fnum * fnum)).

Record World := mkWorld {
  rng : Z;
  files : list (String.string * Model);
  events : list Event
}.

Inductive MainError :=
  | ModelFileNotFound
  | UnpackError            (* zip of an empty list unpacked into three names *)
  | ReduceFailed (e : ReduceError)
  | GridFailed (e : GridError).

Definition emit (e : Event) (w : World) : World :=
  mkWorld (rng w) (files w) (events w ++ [e]).

Definition set_rng (g : Z) (w : World) : World := mkWorld g (files w) (events w).

(** [torch.manual_seed(s)]. *)
Definition manual_seed (s : Z) (w : World) : World := emit (ManualSeed s) (set_rng s w).

(** [torch.save(model, file_path)]. *)
Definition save (m : Model) (p : String.string) (w : World) : World :=
  emit (Saved p) (mkWorld (rng w) ((p, m) :: files w) (events w)).

(** [torch.load(file_path)]: the most recent file saved under that path. *)
Definition load (p : String.string) (w : World) : option Model :=
  match find (fun pm => String.eqb (fst pm) p) (files w) with
  | Some (_, m) => Some m
  | None => None
  end.

(** Python truthiness of [seed] ([None] and [0] are false). *)
Definition truthy_seed (s : option Z) : bool :=
  match s with Some z => negb (Z.eqb z 0) | None => false end.

Variable env : Env.

(** Lines 49-96: seeding, defaults, training and saving, reloading. The
    directory check and [mkdir] of lines 69-72 are not modelled: files are
    kept by path string and [torch.save] always succeeds. *)
Definition prelude (a : Args) (w : World) : (DataModule * Model + MainError) * World :=
  let w1 := match seed a with
            | Some s => if truthy_seed (seed a) then manual_seed s w else w
            | None => w
            end in
  let dm := match datamodule a with Some d => d | None => spirals_datamodule env end in
  let file_path := String.append (model_dirpath a) (model_filename a) in
  let w3 :=
    if load_model a then w1
    else
      let '(m0, w2) :=
        match model a with
        | Some m => (m, w1)
        | None => let '(m, g) := new_mlp env dm (optimizer a) (gpus a) (rng w1) in
                  (m, set_rng g w1)
        end in
      let '(m1, g) := fit env m0 dm (n_epochs a) (gpus a) (rng w2) in
      save m1 file_path (set_rng g w2) in
  match load file_path w3 with
  | None => (inr ModelFileNotFound, w3)
  | Some m => (inl (dm, m), w3)
  end.

(** Lines 97-147: sampling, dimensionality reduction, loss grid, plot. The
    [animate_contour] call is recorded as an event; the gif it writes and the
    ways it can fail are not modelled. *)
Definition postlude (a : Args) (dm : DataModule) (m : Model) (w : World)
    : (option (list Vec * list R * list R) + MainError) * World :=
  let sampled := sample_frames env (model_optim_path m) (n_frames a) in
  match sampled with
  | [] => (inr UnpackError, w)
  | _ :: _ =>
      let optim_path := map flat_w sampled in
      let loss_path := map loss sampled in
      let accu_path := map accuracy sampled in
      let w1 := emit (DimReductionInit (reduction_method a) (custom_directions a) (seed a)) w in
      let '(res, g) := reduce (svd env) (rng w1) optim_path (reduction_method a)
                              (custom_directions a) (seed a) in
      let w2 := set_rng g w1 in
      match res with
      | inr e => (inr (ReduceFailed e), w2)
      | inl rd =>
          match build (evaluate env) (grid_config env) optim_path m
                      (dataset_tensors dm) (path_2d rd) (reduced_dirs rd) with
          | inr e => (inr (GridFailed e), w2)
          | inl lg =>
              let w3 := if make_plot a
                        then emit (AnimateContour (path_2d rd) loss_path accu_path lg
                                                  (pcvariances rd)) w2
                        else w2 in
              (inl (if return_data a then Some (optim_path, loss_path, accu_path)
                    else None), w3)
          end
      end
  end.

Definition loss_landscape_anim (a : Args) (w : World)
    : (option (list Vec * list R * list R) + MainError) * World :=
  match prelude a w with
  | (inr e, w') => (inr e, w')
  | (inl (dm, m), w') => postlude a dm m w'
  end.

End Driver.

Arguments prelude {Data} env a w.
Arguments postlude {Data} env a dm m w.
Arguments loss_landscape_anim {Data} env a w.
Arguments mkArgs {Data}.
Arguments mkEnv {Data}.
Arguments mkDataModule {Data}.
Arguments input_dim {Data}. Arguments num_classes {Data}. Arguments dataset_tensors {Data}.
Arguments spirals_datamodule {Data}. Arguments new_mlp {Data}. Arguments fit {Data}.
Arguments sample_frames {Data}. Arguments svd {Data}. Arguments evaluate {Data}.
Arguments grid_config {Data}.
Arguments n_epochs {Data}. Arguments datamodule {Data}. Arguments model {Data}.
Arguments optimizer {Data}. Arguments reduction_method {Data}.
Arguments custom_directions {Data}. Arguments model_dirpath {Data}.
Arguments model_filename {Data}. Arguments gpus {Data}. Arguments load_model {Data}.
Arguments make_plot {Data}. Arguments output_to_file {Data}.
Arguments output_filename {Data}. Arguments giffps {Data}. Arguments sampling {Data}.
Arguments n_frames {Data}. Arguments seed {Data}. Arguments return_data {Data}.

(** The same call with another [seed] argument. *)
Definition with_seed {Data : Type} (a : Args Data) (s : option Z) : Args Data :=
  mkArgs (n_epochs a) (datamodule a) (model a) (optimizer a) (reduction_method a)
    (custom_directions a) (model_dirpath a) (model_filename a) (gpus a)
    (load_model a) (make_plot a) (output_to_file a) (output_filename a)
    (giffps a) (sampling a) (n_frames a) s (return_data a).

(** [str(i)]: the decimal digits of a natural number. *)
Fixpoint nat_str_aux (fuel n : nat) (acc : string) : string :=
  match fuel with
  | O => acc
  | S f =>
      let acc' := String (Ascii.ascii_of_nat (48 + n mod 10)%nat) acc in
      if Nat.ltb n 10 then acc' else nat_str_aux f (n / 10) acc'
  end.

Definition nat_str (n : nat) : string := nat_str_aux (S n) n "".

(** [f"./{model_dirpath}/model_{optimizer}_{i}.pt"] (lines 186 and 205). *)
Definition model_file_path (model_dirpath optimizer : string) (i : nat) : string :=
  String.append "./" (String.append model_dirpath (String.append "/model_"
    (String.append optimizer (String.append "_" (String.append (nat_str i) ".pt"))))).

(** [train_models] (lines 150-189): the loop body for the optimizer at index
    [i]. [mlp] is the constructor [MLP(input_dim, num_classes,
    num_hidden_layers, hidden_dim, learning_rate, optimizer, gpus)], whose
    weight initialisation draws from the RNG. The file store is keyed by the
    path string; directories are not modelled, so [torch.save] always
    succeeds ([train_models] itself creates no directory). *)
Fixpoint train_loop {Data : Type} (env : Env Data)
    (mlp : nat -> nat -> nat -> nat -> R -> string -> nat -> Z -> Model * Z)
    (dm : DataModule Data) (n_epochs : nat) (learning_rate : R)
    (model_dirpath : string) (gpus : nat) (i : nat) (optimizers : list string)
    (w : World) : World :=
  match optimizers with
  | [] => w
  | o :: os =>
      let '(m, g) := mlp (input_dim dm) (num_classes dm) 5%nat 100%nat learning_rate o gpus (rng w) in
      let '(m1, g1) := fit env m dm n_epochs gpus g in
      let w' := save m1 (model_file_path model_dirpath o i) (set_rng g1 w) in
      train_loop env mlp dm n_epochs learning_rate model_dirpath gpus (S i) os w'
  end.

Definition train_models {Data : Type} (env : Env Data)
    (mlp : nat -> nat -> nat -> nat -> R -> string -> nat -> Z -> Model * Z)
    (n_epochs : nat) (optimizers : list string) (learning_rate : R)
    (datamodule : option (DataModule Data)) (model_dirpath : string) (gpus : nat)
    (seed : option Z) (w : World) : World :=
  let w1 := match seed with
            | Some s => if truthy_seed seed then manual_seed s w else w
            | None => w
            end in
  let dm := match datamodule with Some d => d | None => spirals_datamodule env end in
  train_loop env mlp dm n_epochs learning_rate model_dirpath gpus 0 optimizers w1.

(** [compare_optimizers] (lines 192-222): the loop body for the optimizer at
    index [i]; a missing file raises, a failing [reduce] propagates. *)
Fixpoint compare_loop {Data : Type} (env : Env Data) (custom_directions : option (list Vec))
    (model_dirpath : string) (seed : option Z) (i : nat) (optimizers : list string)
    (w : World) : (list (string * list (R * R)) + MainError) * World :=
  match optimizers with
  | [] => (inl [], w)
  | o :: os =>
      match load (model_file_path model_dirpath o i) w with
      | None => (inr ModelFileNotFound, w)
      | Some m =>
          let sampled := sample_frames env (model_optim_path m) 300 in
          let optim_path := map flat_w sampled in
          let w1 := emit (DimReductionInit Custom custom_directions seed) w in
          let '(res, g) := reduce (svd env) (rng w1) optim_path Custom custom_directions seed in
          let w2 := set_rng g w1 in
          match res with
          | inr e => (inr (ReduceFailed e), w2)
          | inl rd =>
              match compare_loop env custom_directions model_dirpath seed (S i) os w2 with
              | (inr e, w3) => (inr e, w3)
              | (inl ps, w3) => (inl ((o, path_2d rd) :: ps), w3)
              end
          end
      end
  end.

Definition compare_optimizers {Data : Type} (env : Env Data) (optimizers : list string)
    (custom_directions : option (list Vec)) (model_dirpath : string) (seed : option Z)
    (w : World) : (list (string * list (R * R)) + MainError) * World :=
  compare_loop env custom_directions model_dirpath seed 0 optimizers w.

(** The same call with another [make_plot] argument. *)
Definition with_make_plot {Data : Type} (a : Args Data) (b : bool) : Args Data :=
  mkArgs (n_epochs a) (datamodule a) (model a) (optimizer a) (reduction_method a)
    (custom_directions a) (model_dirpath a) (model_filename a) (gpus a)
    (load_model a) b (output_to_file a) (output_filename a)
    (giffps a) (sampling a) (n_frames a) (seed a) (return_data a).


(* ------------------------------------------------------------------------- *)
(** ** Lemmas on vectors and lists *)

Lemma vsub_self (v : Vec) : vsub v v = map (fun _ => 0) v.
Proof. induction v as [|a v IH]; simpl; [reflexivity|]. now rewrite IH, Rminus_diag. Qed.

Lemma dot_zeros (v d : Vec) : dot (map (fun _ => 0) v) d = 0.
Proof.
  revert d; induction v as [|a v IH]; intros [|b d]; simpl; try reflexivity.
  rewrite IH; ring.
Qed.

Lemma nth_error_pred_length {A : Type} (l : list A) (d : A) :
  l <> [] -> nth_error l (pred (length l)) = Some (last l d).
Proof.
  induction l as [|a l IH]; intros Hne; [congruence|].
  destruct l as [|b l]; [reflexivity|].
  specialize (IH ltac:(discriminate)). simpl in *. exact IH.
Qed.

Lemma center_last (traj : list Vec) (w0 : Vec) :
  traj <> [] ->
  nth_error (center traj (last traj w0)) (pred (length traj))
  = Some (map (fun _ => 0) (last traj w0)).
Proof.
  intros Hne. unfold center. rewrite nth_error_map.
  rewrite (nth_error_pred_length traj w0 Hne). simpl. now rewrite vsub_self.
Qed.

(** Outputs of one call of [reduce] that the idempotence property compares. *)
Definition reduce_outputs (x : (Reduced + ReduceError) * Z)
    : option (list (R * R) * (Vec * Vec)) :=
  match fst x with
  | inl r => Some (path_2d r, reduced_dirs r)
  | inr _ => None
  end.

(** Two consecutive calls with the same trajectory, method and seed, the
    second one seeing the RNG state the first left behind, agree. *)
Definition consecutive_calls_agree (svd : list Vec -> SVD) (g : Z) (traj : list Vec)
    (m : Method) (dirs : option (list Vec)) (seed : option Z) : Prop :=
  let first := reduce svd g traj m dirs seed in
  reduce_outputs (reduce svd (snd first) traj m dirs seed) = reduce_outputs first.

(** An SVD routine for the examples: it reports the coordinate axes. *)
Definition svd_axes (M : list Vec) : SVD := mkSVD [0; 0] ([1; 0], [0; 1]).


(* ------------------------------------------------------------------------- *)
(** ** Dimension Reducer: properties *)

(** C1: for a trajectory of at least two steps, [reduce] with method "pca"
    succeeds, returns one (real, hence finite) coordinate pair per step, and
    the pair of the last step is [(0, 0)], whatever directions the SVD yields. *)
Theorem reduce_pca_path_2d (svd : list Vec -> SVD) (g : Z) (traj : list Vec)
    (dirs : option (list Vec)) (seed : option Z) :
  (2 <= length traj)%nat ->
  exists r, fst (reduce svd g traj Pca dirs seed) = inl r /\
    length (path_2d r) = length traj /\
    nth_error (path_2d r) (pred (length traj)) = Some (0, 0).
Proof.
  intros Hlen. destruct traj as [|w0 rest]; [simpl in Hlen; lia|].
  unfold reduce.
  replace (Nat.ltb (length (w0 :: rest)) 2) with false
    by (symmetry; apply Nat.ltb_ge; exact Hlen).
  destruct (right_vecs (svd (center (w0 :: rest) (last (w0 :: rest) w0)))) as [d1 d2].
  eexists; split; [reflexivity|]. cbn [path_2d]. unfold project. split.
  - rewrite length_map. unfold center. now rewrite length_map.
  - rewrite nth_error_map, center_last by discriminate. simpl.
    now rewrite !dot_zeros.
Qed.

Lemma reduce_pca_path_2d_witness :
  (2 <= length [[1; 2]; [3; 4]; [5; 6]])%nat /\
  exists r, fst (reduce svd_axes 0 [[1; 2]; [3; 4]; [5; 6]] Pca None None) = inl r /\
    length (path_2d r) = length [[1; 2]; [3; 4]; [5; 6]] /\
    nth_error (path_2d r) (pred (length [[1; 2]; [3; 4]; [5; 6]])) = Some (0, 0).
Proof.
  split; [simpl; lia|].
  apply (reduce_pca_path_2d svd_axes 0 [[1; 2]; [3; 4]; [5; 6]] None None).
  simpl; lia.
Defined.

(** C5: with method "custom" and two directions of the trajectory's dimension
    D, [reduce] returns exactly those two vectors as [reduced_dirs] (no
    [pcvariances], RNG state untouched). *)
Theorem reduce_custom_dirs_verbatim (svd : list Vec -> SVD) (g : Z) (traj : list Vec)
    (D : nat) (d1 d2 : Vec) (seed : option Z) :
  traj <> [] -> Forall (fun w => length w = D) traj ->
  length d1 = D -> length d2 = D ->
  exists r, reduce svd g traj Custom (Some [d1; d2]) seed = (inl r, g) /\
    reduced_dirs r = (d1, d2) /\ pcvariances r = None.
Proof.
  intros Hne HD H1 H2. destruct traj as [|w0 rest]; [congruence|].
  pose proof (Forall_inv HD) as Hw0. cbn beta in Hw0.
  unfold reduce. rewrite H1, H2, <- Hw0, Nat.eqb_refl. simpl.
  eexists; split; [reflexivity|]. split; reflexivity.
Qed.

Lemma reduce_custom_dirs_verbatim_witness :
  exists r, reduce svd_axes 0 [[1; 2]; [3; 4]] Custom (Some [[1; 1]; [2; 0]]) None
            = (inl r, 0%Z) /\
    reduced_dirs r = ([1; 1], [2; 0]) /\ pcvariances r = None.
Proof.
  apply (reduce_custom_dirs_verbatim svd_axes 0 [[1; 2]; [3; 4]] 2 [1; 1] [2; 0] None).
  - discriminate.
  - repeat constructor.
  - reflexivity.
  - reflexivity.
Defined.

(** C7: with method "custom", a trajectory of dimension D and a supplied
    direction whose dimension is not D, [reduce] fails with
    [DirectionShapeMismatch] and leaves the RNG state as it was. *)
Theorem reduce_custom_shape_mismatch (svd : list Vec -> SVD) (g : Z) (traj : list Vec)
    (D : nat) (d1 d2 : Vec) (seed : option Z) :
  traj <> [] -> Forall (fun w => length w = D) traj ->
  (length d1 <> D \/ length d2 <> D) ->
  reduce svd g traj Custom (Some [d1; d2]) seed = (inr DirectionShapeMismatch, g).
Proof.
  intros Hne HD Hmis. destruct traj as [|w0 rest]; [congruence|].
  pose proof (Forall_inv HD) as Hw0. cbn beta in Hw0. subst D.
  unfold reduce.
  destruct Hmis as [Hm | Hm].
  - apply Nat.eqb_neq in Hm. now rewrite Hm.
  - apply Nat.eqb_neq in Hm. rewrite Hm, andb_false_r. reflexivity.
Qed.

Lemma reduce_custom_shape_mismatch_witness :
  reduce svd_axes 0 [[1; 2]; [3; 4]] Custom (Some [[1; 1; 1]; [2; 0]]) None
  = (inr DirectionShapeMismatch, 0%Z).
Proof.
  apply (reduce_custom_shape_mismatch svd_axes 0 [[1; 2]; [3; 4]] 2 [1; 1; 1] [2; 0] None).
  - discriminate.
  - repeat constructor.
  - left; discriminate.
Defined.

(** C8 (amended): apart from the random method without a seed, [reduce] does
    not depend on the global RNG state, so calls with the same trajectory,
    method and seed give the same [path_2d] and [reduced_dirs]. *)
Theorem reduce_deterministic (svd : list Vec -> SVD) (g g' : Z) (traj : list Vec)
    (m : Method) (dirs : option (list Vec)) (seed : option Z) :
  (m <> Random \/ seed <> None) ->
  fst (reduce svd g traj m dirs seed) = fst (reduce svd g' traj m dirs seed).
Proof.
  intros Hm. destruct traj as [|w0 rest]; [reflexivity|].
  unfold reduce. destruct m.
  - destruct (Nat.ltb _ 2); [reflexivity|].
    destruct (right_vecs _); reflexivity.
  - destruct Hm as [Hm|Hm]; [congruence|].
    destruct seed as [s|]; [|congruence].
    destruct (Nat.ltb _ 2); [reflexivity|].
    destruct (random_dirs _ s) as [[d1 d2] g1]; reflexivity.
  - destruct dirs as [[|d1 [|d2 [|]]]|]; try reflexivity.
    destruct (_ && _)%bool; reflexivity.
Qed.

Lemma reduce_deterministic_witness :
  (Random <> Random \/ Some 7%Z <> None) /\
  fst (reduce svd_axes 0 [[1; 2]; [3; 4]] Random None (Some 7%Z))
  = fst (reduce svd_axes 5 [[1; 2]; [3; 4]] Random None (Some 7%Z)).
Proof.
  split; [right; discriminate|].
  apply reduce_deterministic. right; discriminate.
Defined.

Lemma reduce_random_unseeded_eq (svd : list Vec -> SVD) (g : Z) (w0 : Vec)
    (rest : list Vec) (dirs : option (list Vec)) :
  (2 <= length (w0 :: rest))%nat ->
  reduce svd g (w0 :: rest) Random dirs None
  = (inl (mkReduced (project (center (w0 :: rest) (last (w0 :: rest) w0))
                       (fst (fst (random_dirs (length w0) g)))
                       (snd (fst (random_dirs (length w0) g))))
            (fst (random_dirs (length w0) g)) None),
     snd (random_dirs (length w0) g)).
Proof.
  intros Hlen. unfold reduce.
  replace (Nat.ltb (length (w0 :: rest)) 2) with false
    by (symmetry; apply Nat.ltb_ge; exact Hlen).
  destruct (random_dirs (length w0) g) as [[d1 d2] g1].
  reflexivity.
Qed.

Lemma random_dirs_first (D : nat) (g : Z) :
  fst (fst (random_dirs D g)) = normalize (fst (draw_vec D g)).
Proof.
  unfold random_dirs. destruct (draw_vec D g) as [r1 g1].
  destruct (draw_vec D g1) as [r2 g2]. reflexivity.
Qed.

Lemma random_dirs_state (D : nat) (g : Z) :
  snd (random_dirs D g) = snd (draw_vec D (snd (draw_vec D g))).
Proof.
  unfold random_dirs. destruct (draw_vec D g) as [r1 g1]. cbn [snd].
  destruct (draw_vec D g1) as [r2 g2]. reflexivity.
Qed.

Lemma draw_vec_2_from_2 :
  draw_vec 2 2 = ([rng_float 59559187; rng_float 1495354192], 1495354192%Z).
Proof. reflexivity. Qed.

Lemma draw_vec_2_from_1495354192 :
  snd (draw_vec 2 1495354192) = 846338638%Z.
Proof. reflexivity. Qed.

Lemma draw_vec_2_from_846338638 :
  draw_vec 2 846338638 = ([rng_float 1693263727; rng_float 1775750268], 1775750268%Z).
Proof. reflexivity. Qed.

Lemma norm2_pos (a b : R) : a <> 0 -> 0 < norm [a; b].
Proof.
  intros Ha. unfold norm. simpl. apply sqrt_lt_R0.
  assert (0 < a * a) by (apply Rsqr_pos_lt in Ha; exact Ha). nra.
Qed.

(** C8 refuted: with method "random" and no seed, two consecutive calls on
    the same trajectory (starting from RNG state 2, trajectory [[1;0];[0;1]])
    draw from different RNG states and return different directions. *)
Lemma reduce_random_unseeded_not_repeatable :
  ~ (forall svd g traj m dirs seed, consecutive_calls_agree svd g traj m dirs seed).
Proof.
  intros H. specialize (H svd_axes 2%Z [[1; 0]; [0; 1]] Random None None).
  unfold consecutive_calls_agree in H.
  rewrite (reduce_random_unseeded_eq svd_axes 2 _ _ None) in H
    by (simpl; lia).
  cbn [snd] in H.
  rewrite (reduce_random_unseeded_eq svd_axes _ _ _ None) in H
    by (simpl; lia).
  unfold reduce_outputs in H. cbn [fst path_2d reduced_dirs] in H.
  pose proof (f_equal (fun o => match o with Some p => fst (snd p) | None => [] end) H)
    as Hdirs.
  clear H. cbn beta iota in Hdirs. cbn [snd] in Hdirs.
  rewrite !random_dirs_first, random_dirs_state in Hdirs.
  cbn [length] in Hdirs.
  rewrite draw_vec_2_from_2 in Hdirs. cbn [snd fst] in Hdirs.
  rewrite draw_vec_2_from_1495354192, draw_vec_2_from_846338638 in Hdirs.
  cbn [fst] in Hdirs. unfold normalize in Hdirs. cbn [map] in Hdirs.
  injection Hdirs as Hx _.
  set (a := rng_float 1693263727) in Hx.
  set (c := rng_float 59559187) in Hx.
  assert (Ha : 0 < a) by (subst a; unfold rng_float, rng_modulus; lra).
  assert (Hc : c < 0) by (subst c; unfold rng_float, rng_modulus; lra).
  pose proof (norm2_pos a (rng_float 1775750268) ltac:(lra)) as Na.
  pose proof (norm2_pos c (rng_float 1495354192) ltac:(lra)) as Nc.
  assert (0 < a / norm [a; rng_float 1775750268])
    by (apply Rdiv_lt_0_compat; assumption).
  assert (c / norm [c; rng_float 1495354192] < 0).
  { unfold Rdiv. apply Rmult_neg_pos; [exact Hc | apply Rinv_0_lt_compat; exact Nc]. }
  lra.
Qed.


Lemma dot_self_nonneg (v : Vec) : 0 <= dot v v.
Proof. induction v as [|a v IH]; simpl; nra. Qed.














(* ------------------------------------------------------------------------- *)
(** ** Loss Grid Builder: lemmas *)

Lemma fold_left_Rmin_le (l : list R) (x0 : R) :
  fold_left Rmin l x0 <= x0 /\ forall y, In y l -> fold_left Rmin l x0 <= y.
Proof.
  revert x0; induction l as [|a l IH]; intros x0; simpl.
  - split; [lra | tauto].
  - destruct (IH (Rmin x0 a)) as [H1 H2].
    pose proof (Rmin_l x0 a). pose proof (Rmin_r x0 a).
    split; [lra|]. intros y [<-|Hy]; [lra | auto].
Qed.

Lemma list_min_le (x0 : R) (l : list R) (y : R) : In y (x0 :: l) -> list_min x0 l <= y.
Proof.
  unfold list_min. destruct (fold_left_Rmin_le l x0) as [H1 H2].
  intros [<-|Hy]; auto.
Qed.

Lemma fold_left_Rmax_ge (l : list R) (x0 : R) :
  x0 <= fold_left Rmax l x0 /\ forall y, In y l -> y <= fold_left Rmax l x0.
Proof.
  revert x0; induction l as [|a l IH]; intros x0; simpl.
  - split; [lra | tauto].
  - destruct (IH (Rmax x0 a)) as [H1 H2].
    pose proof (Rmax_l x0 a). pose proof (Rmax_r x0 a).
    split; [lra|]. intros y [<-|Hy]; [lra | auto].
Qed.

Lemma list_max_ge (x0 : R) (l : list R) (y : R) : In y (x0 :: l) -> y <= list_max x0 l.
Proof.
  unfold list_max. destruct (fold_left_Rmax_ge l x0) as [H1 H2].
  intros [<-|Hy]; auto.
Qed.

(** With a positive relative margin and a positive extent, the bounds lie
    strictly outside every value of the axis. *)
Lemma axis_bounds_strict (cfg : GridConfig) (x0 : R) (xs : list R) (y : R) :
  0 < margin cfg ->
  (exists u v, In u (x0 :: xs) /\ In v (x0 :: xs) /\ u <> v) ->
  In y (x0 :: xs) ->
  fst (axis_bounds cfg x0 xs) < y < snd (axis_bounds cfg x0 xs).
Proof.
  intros Hm [u [v [Hu [Hv Huv]]]] Hy. unfold axis_bounds. cbn [fst snd].
  pose proof (list_min_le x0 xs u Hu). pose proof (list_min_le x0 xs v Hv).
  pose proof (list_max_ge x0 xs u Hu). pose proof (list_max_ge x0 xs v Hv).
  pose proof (list_min_le x0 xs y Hy). pose proof (list_max_ge x0 xs y Hy).
  assert (Hext : 0 < list_max x0 xs - list_min x0 xs).
  { destruct (Rlt_or_le u v); [lra|]. destruct (Req_dec_T u v); [congruence|lra]. }
  destruct (Rlt_dec 0 (list_max x0 xs - list_min x0 xs)) as [_|Hn]; [|lra].
  assert (0 < margin cfg * (list_max x0 xs - list_min x0 xs)) by nra.
  lra.
Qed.

Lemma linspace_length (a b : R) (n : nat) : length (linspace a b n) = n.
Proof.
  destruct n as [|[|k]]; simpl; try reflexivity.
  now rewrite length_map, length_seq.
Qed.

Lemma linspace_ends (a b : R) (n : nat) :
  (2 <= n)%nat -> In a (linspace a b n) /\ In b (linspace a b n).
Proof.
  intros Hn. destruct n as [|[|k]]; [lia|lia|].
  unfold linspace. split.
  - apply in_map_iff. exists 0%nat. split; [simpl; ring | apply in_seq; lia].
  - apply in_map_iff. exists (S k). split; [|apply in_seq; lia].
    assert (INR (S k) <> 0) by (apply not_0_INR; discriminate).
    field. exact H.
Qed.

Lemma map_err_inl {A B E : Type} (f : A -> B + E) (l : list A) (l' : list B) :
  map_err f l = inl l' -> Forall2 (fun a b => f a = inl b) l l'.
Proof.
  revert l'; induction l as [|x l IH]; intros l' H; simpl in H.
  - injection H as <-. constructor.
  - destruct (f x) as [y|e] eqn:Hf; [|discriminate].
    destruct (map_err f l) as [ys|e] eqn:Hm; [|discriminate].
    injection H as <-. constructor; [exact Hf | apply IH; reflexivity].
Qed.

(** What a successful [build] consists of. *)
Lemma build_inv {Data : Type} (evaluate : Vec -> Data -> option R) (cfg : GridConfig)
    (optim_path : list Vec) (mdl : Model) (data : Data) (path : list (R * R))
    (d1 d2 : Vec) (G : LossGridOut) :
  build evaluate cfg optim_path mdl data path (d1, d2) = inl G ->
  exists p0 prest w0 wrest st0 strest,
    path = p0 :: prest /\ optim_path = w0 :: wrest /\
    model_optim_path mdl = st0 :: strest /\
    let xb := axis_bounds cfg (fst p0) (map fst path) in
    let yb := axis_bounds cfg (snd p0) (map snd path) in
    let xs := linspace (fst xb) (snd xb) (resolution cfg) in
    let ys := linspace (fst yb) (snd yb) (resolution cfg) in
    coords G = map (fun y => map (fun x => (x, y)) xs) ys /\
    map_err (map_err (log_loss_at evaluate cfg data (last optim_path w0) d1 d2)) (coords G)
      = inl (loss_values_log_2d G) /\
    true_optim_point G = last path p0 /\
    loss_min G = loss (last (model_optim_path mdl) st0).
Proof.
  unfold build. intros H.
  destruct (negb _); [discriminate|].
  destruct path as [|p0 prest]; [discriminate|].
  destruct optim_path as [|w0 wrest]; [discriminate|].
  destruct (model_optim_path mdl) as [|st0 strest] eqn:Hm; [discriminate|].
  destruct (axis_bounds cfg (fst p0) (map fst (p0 :: prest))) as [x_min x_max] eqn:Hx.
  destruct (axis_bounds cfg (snd p0) (map snd (p0 :: prest))) as [y_min y_max] eqn:Hy.
  destruct (map_err _ _) as [lv|e] eqn:Hlv; [|discriminate].
  injection H as <-.
  exists p0, prest, w0, wrest, st0, strest. cbn zeta.
  rewrite Hx, Hy. cbn [fst snd coords loss_values_log_2d true_optim_point loss_min].
  repeat split; auto.
Qed.

Lemma last_default_irrel {A : Type} (x : A) (l : list A) (d d' : A) :
  last (x :: l) d = last (x :: l) d'.
Proof. revert x; induction l as [|y l IH]; intros x; [reflexivity|]. exact (IH y). Qed.

(** A lattice point: an element of one of the rows. *)
Definition In2 {A : Type} (c : A) (cs : list (list A)) : Prop :=
  exists row, In row cs /\ In c row.

(** Concrete collaborators for the examples: the loss at a parameter vector is
    its squared norm; resolution 2, margin 0.2, fallback margin 1, eps 1e-6. *)
Definition evaluate_sq (v : Vec) (_ : unit) : option R := Some (dot v v).

Definition cfg_ex : GridConfig := mkGridConfig 2 (/ 5) 1 (/ 1000000).

Definition model_ex : Model :=
  mkModel [0; 0] [mkStep [1; 1] 1 0; mkStep [0; 0] (/ 10) 1].

(* ------------------------------------------------------------------------- *)
(** ** Loss Grid Builder: properties *)

(** C2: a successful [build] anchors the grid at the last point of [path_2d]
    and takes [loss_min] from the last record of the model's recorded
    trajectory, not from the grid evaluations. *)
Theorem build_true_optim_point {Data : Type} (evaluate : Vec -> Data -> option R)
    (cfg : GridConfig) (optim_path : list Vec) (mdl : Model) (data : Data)
    (path : list (R * R)) (d1 d2 : Vec) (G : LossGridOut) :
  build evaluate cfg optim_path mdl data path (d1, d2) = inl G ->
  path <> [] /\ model_optim_path mdl <> [] /\
  (forall d, true_optim_point G = last path d) /\
  (forall st, loss_min G = loss (last (model_optim_path mdl) st)).
Proof.
  intros H.
  destruct (build_inv evaluate cfg optim_path mdl data path d1 d2 G H)
    as (p0 & prest & w0 & wrest & st0 & strest & -> & -> & Hm & _ & _ & Ht & Hl).
  rewrite Hm in *. split; [discriminate|]. split; [discriminate|]. split.
  - intros d. rewrite Ht. apply last_default_irrel.
  - intros st. rewrite Hl. f_equal. apply last_default_irrel.
Qed.

Lemma build_true_optim_point_witness :
  exists G, build evaluate_sq cfg_ex [[1; 1]; [0; 0]] model_ex tt
              [(-2, -1); (0, 0)] ([1; 0], [0; 1]) = inl G /\
    ([(-2, -1); (0, 0)] : list (R * R)) <> [] /\ model_optim_path model_ex <> [] /\
    (forall d, true_optim_point G = last [(-2, -1); (0, 0)] d) /\
    (forall st, loss_min G = loss (last (model_optim_path model_ex) st)).
Proof.
  destruct (build evaluate_sq cfg_ex [[1; 1]; [0; 0]] model_ex tt
              [(-2, -1); (0, 0)] ([1; 0], [0; 1])) as [G|e] eqn:E.
  - exists G. split; [reflexivity|].
    exact (build_true_optim_point evaluate_sq cfg_ex _ model_ex tt _ _ _ G E).
  - exfalso. unfold build in E. simpl in E. discriminate.
Defined.

(** C3: for a path with positive extent along both axes, a relative margin
    > 0 and a resolution of at least 2, the lattice [coords] has a point below
    and left of, and a point above and right of, every path point: its
    bounding box contains the path strictly. *)
Theorem build_coords_contain_path {Data : Type} (evaluate : Vec -> Data -> option R)
    (cfg : GridConfig) (optim_path : list Vec) (mdl : Model) (data : Data)
    (path : list (R * R)) (d1 d2 : Vec) (G : LossGridOut) :
  build evaluate cfg optim_path mdl data path (d1, d2) = inl G ->
  (2 <= resolution cfg)%nat -> 0 < margin cfg ->
  (exists p q, In p path /\ In q path /\ fst p <> fst q) ->
  (exists p q, In p path /\ In q path /\ snd p <> snd q) ->
  exists c_lo c_hi, In2 c_lo (coords G) /\ In2 c_hi (coords G) /\
    forall p, In p path -> fst c_lo < fst p < fst c_hi /\ snd c_lo < snd p < snd c_hi.
Proof.
  intros H HR Hm [px [qx [Hpx [Hqx Hx]]]] [py [qy [Hpy [Hqy Hy]]]].
  destruct (build_inv evaluate cfg optim_path mdl data path d1 d2 G H)
    as (p0 & prest & w0 & wrest & st0 & strest & Hp & _ & _ & Hc & _).
  cbn zeta in Hc.
  set (xb := axis_bounds cfg (fst p0) (map fst path)) in Hc.
  set (yb := axis_bounds cfg (snd p0) (map snd path)) in Hc.
  set (xs := linspace (fst xb) (snd xb) (resolution cfg)) in Hc.
  set (ys := linspace (fst yb) (snd yb) (resolution cfg)) in Hc.
  destruct (linspace_ends (fst xb) (snd xb) _ HR) as [Hx0 Hx1].
  destruct (linspace_ends (fst yb) (snd yb) _ HR) as [Hy0 Hy1].
  assert (Hin : forall (f : R * R -> R) p, In p path -> In (f p) (f p0 :: map f path))
    by (intros f p Hp'; right; now apply in_map).
  exists (fst xb, fst yb), (snd xb, snd yb). rewrite Hc. split; [|split].
  - exists (map (fun x => (x, fst yb)) xs). split.
    + apply (in_map (fun y => map (fun x => (x, y)) xs)). exact Hy0.
    + apply (in_map (fun x => (x, fst yb))). exact Hx0.
  - exists (map (fun x => (x, snd yb)) xs). split.
    + apply (in_map (fun y => map (fun x => (x, y)) xs)). exact Hy1.
    + apply (in_map (fun x => (x, snd yb))). exact Hx1.
  - intros p Hp'. cbn [fst snd]. split.
    + apply axis_bounds_strict; [exact Hm | | now apply Hin].
      exists (fst px), (fst qx). split; [now apply Hin|]. split; [now apply Hin|exact Hx].
    + apply axis_bounds_strict; [exact Hm | | now apply Hin].
      exists (snd py), (snd qy). split; [now apply Hin|]. split; [now apply Hin|exact Hy].
Qed.

Lemma build_coords_contain_path_witness :
  exists G, build evaluate_sq cfg_ex [[1; 1]; [0; 0]] model_ex tt
              [(-2, -1); (0, 0)] ([1; 0], [0; 1]) = inl G /\
  (2 <= resolution cfg_ex)%nat /\ 0 < margin cfg_ex /\
  (exists p q, In p [(-2, -1); (0, 0)] /\ In q [(-2, -1); (0, 0)] /\ fst p <> fst q) /\
  (exists p q, In p [(-2, -1); (0, 0)] /\ In q [(-2, -1); (0, 0)] /\ snd p <> snd q) /\
  exists c_lo c_hi, In2 c_lo (coords G) /\ In2 c_hi (coords G) /\
    forall p, In p [(-2, -1); (0, 0)] ->
      fst c_lo < fst p < fst c_hi /\ snd c_lo < snd p < snd c_hi.
Proof.
  assert (HR : (2 <= resolution cfg_ex)%nat) by (simpl; lia).
  assert (Hm : 0 < margin cfg_ex) by (simpl; lra).
  assert (Hx : exists p q, In p [(-2, -1); (0, 0)] /\ In q [(-2, -1); (0, 0)] /\
                           fst p <> fst q).
  { exists (-2, -1), (0, 0). simpl. split; [now left|]. split; [right; now left|lra]. }
  assert (Hy : exists p q, In p [(-2, -1); (0, 0)] /\ In q [(-2, -1); (0, 0)] /\
                           snd p <> snd q).
  { exists (-2, -1), (0, 0). simpl. split; [now left|]. split; [right; now left|lra]. }
  destruct (build evaluate_sq cfg_ex [[1; 1]; [0; 0]] model_ex tt
              [(-2, -1); (0, 0)] ([1; 0], [0; 1])) as [G|e] eqn:E.
  - exists G. split; [reflexivity|]. do 4 (split; [assumption|]).
    exact (build_coords_contain_path evaluate_sq cfg_ex _ model_ex tt _ _ _ G E HR Hm Hx Hy).
  - exfalso. unfold build in E. simpl in E. discriminate.
Defined.

Lemma Forall2_Forall_r {A B : Type} (P : A -> B -> Prop) (Q : A -> Prop) (Q' : B -> Prop)
    (l : list A) (l' : list B) :
  (forall a b, P a b -> Q a -> Q' b) -> Forall2 P l l' -> Forall Q l -> Forall Q' l'.
Proof.
  intros HPQ H2. induction H2 as [|a b l l' Hab _ IH]; intros HQ; [constructor|].
  inversion HQ as [|? ? Ha Hl]; subst. constructor; [eapply HPQ; eauto | auto].
Qed.

(** C4: a successful [build] with resolution R yields an R x R lattice and an
    R x R array of log losses aligned with it; each entry is
    [ln (loss + eps)] of the loss evaluated at
    [ReferencePoint + x * dir1 + y * dir2] for the matching [(x, y)], its
    argument is positive (so the logarithm is defined and finite), and
    [exp entry - eps] gives the raw loss back. Losses are non-negative. *)
Theorem build_log_losses {Data : Type} (evaluate : Vec -> Data -> option R)
    (cfg : GridConfig) (optim_path : list Vec) (mdl : Model) (data : Data)
    (path : list (R * R)) (d1 d2 : Vec) (G : LossGridOut) :
  0 < log_eps cfg ->
  (forall v l, evaluate v data = Some l -> 0 <= l) ->
  build evaluate cfg optim_path mdl data path (d1, d2) = inl G ->
  length (coords G) = resolution cfg /\
  Forall (fun row => length row = resolution cfg) (coords G) /\
  length (loss_values_log_2d G) = resolution cfg /\
  Forall (fun row => length row = resolution cfg) (loss_values_log_2d G) /\
  Forall2 (Forall2 (fun c e => exists l,
             evaluate (grid_point (last optim_path (hd [] optim_path)) d1 d2 c) data
               = Some l /\
             0 < l + log_eps cfg /\ e = ln (l + log_eps cfg) /\ exp e - log_eps cfg = l))
          (coords G) (loss_values_log_2d G).
Proof.
  intros Heps Hnn H.
  destruct (build_inv evaluate cfg optim_path mdl data path d1 d2 G H)
    as (p0 & prest & w0 & wrest & st0 & strest & Hp & -> & _ & Hc & Hlv & _).
  cbn zeta in Hc.
  apply map_err_inl in Hlv.
  assert (Hrows : Forall (fun row => length row = resolution cfg) (coords G)).
  { rewrite Hc. apply Forall_forall. intros row Hrow.
    apply in_map_iff in Hrow. destruct Hrow as [y [<- _]].
    now rewrite length_map, linspace_length. }
  assert (Hlen : length (coords G) = resolution cfg)
    by (rewrite Hc, length_map; apply linspace_length).
  assert (Hcell : Forall2 (Forall2 (fun c e => exists l,
             evaluate (grid_point (last (w0 :: wrest) (hd [] (w0 :: wrest))) d1 d2 c) data
               = Some l /\
             0 < l + log_eps cfg /\ e = ln (l + log_eps cfg) /\ exp e - log_eps cfg = l))
          (coords G) (loss_values_log_2d G)).
  { eapply Forall2_impl; [|exact Hlv]. intros row lrow Hrow.
    apply map_err_inl in Hrow. eapply Forall2_impl; [|exact Hrow].
    intros c e Hce. unfold log_loss_at in Hce. cbn [hd].
    destruct (evaluate _ data) as [l|] eqn:Hev; [|discriminate].
    injection Hce as <-. exists l.
    pose proof (Hnn _ _ Hev).
    assert (Hpos : 0 < l + log_eps cfg) by lra.
    repeat split; auto. rewrite exp_ln by exact Hpos. ring. }
  repeat split; auto.
  - rewrite <- (Forall2_length Hlv). exact Hlen.
  - eapply Forall2_Forall_r; [|exact Hlv|exact Hrows].
    intros row lrow Hrow Hl. apply map_err_inl, Forall2_length in Hrow. congruence.
Qed.

Lemma build_log_losses_witness :
  exists G, build evaluate_sq cfg_ex [[1; 1]; [0; 0]] model_ex tt
              [(-2, -1); (0, 0)] ([1; 0], [0; 1]) = inl G /\
  0 < log_eps cfg_ex /\
  (forall v l, evaluate_sq v tt = Some l -> 0 <= l) /\
  length (coords G) = resolution cfg_ex /\
  Forall (fun row => length row = resolution cfg_ex) (coords G) /\
  length (loss_values_log_2d G) = resolution cfg_ex /\
  Forall (fun row => length row = resolution cfg_ex) (loss_values_log_2d G) /\
  Forall2 (Forall2 (fun c e => exists l,
             evaluate_sq (grid_point (last [[1; 1]; [0; 0]] (hd [] [[1; 1]; [0; 0]]))
                            [1; 0] [0; 1] c) tt = Some l /\
             0 < l + log_eps cfg_ex /\ e = ln (l + log_eps cfg_ex) /\
             exp e - log_eps cfg_ex = l))
          (coords G) (loss_values_log_2d G).
Proof.
  assert (Heps : 0 < log_eps cfg_ex) by (simpl; lra).
  assert (Hnn : forall v l, evaluate_sq v tt = Some l -> 0 <= l).
  { intros v l Hv. injection Hv as <-. apply dot_self_nonneg. }
  destruct (build evaluate_sq cfg_ex [[1; 1]; [0; 0]] model_ex tt
              [(-2, -1); (0, 0)] ([1; 0], [0; 1])) as [G|e] eqn:E.
  - exists G. split; [reflexivity|]. do 2 (split; [assumption|]).
    exact (build_log_losses evaluate_sq cfg_ex _ model_ex tt _ _ _ G Heps Hnn E).
  - exfalso. unfold build in E. simpl in E. discriminate.
Defined.

(* ------------------------------------------------------------------------- *)
(** ** The driver: lemmas *)

(** Events of the seeding step. *)
Definition seed_events (s : option Z) : list Event :=
  match s with
  | Some z => if truthy_seed (Some z) then [ManualSeed z] else []
  | None => []
  end.

Lemma prelude_events {Data : Type} (env : Env Data) (a : Args Data) (w : World) :
  events (snd (prelude env a w))
  = events w ++ seed_events (seed a)
      ++ (if load_model a then []
          else [Saved (String.append (model_dirpath a) (model_filename a))]).
Proof.
  unfold prelude. destruct (load_model a).
  - match goal with |- context [load ?p ?w3] => destruct (load p w3) as [lm|] end;
    cbn [snd]; unfold seed_events; destruct (seed a) as [s|];
    try destruct (truthy_seed (Some s)); unfold manual_seed, emit, set_rng; simpl;
    rewrite ?app_nil_r; reflexivity.
  - destruct (model a) as [m|];
    [| match goal with |- context [new_mlp ?e ?d ?o ?n ?g] =>
         destruct (new_mlp e d o n g) as [m g'] end];
    match goal with |- context [fit ?e ?m ?d ?n ?c ?g] =>
      destruct (fit e m d n c g) as [m1 g1] end;
    match goal with |- context [load ?p ?w3] => destruct (load p w3) as [lm|] end;
    cbn [snd]; unfold seed_events; destruct (seed a) as [s|];
    try destruct (truthy_seed (Some s));
    unfold manual_seed, save, emit, set_rng; simpl;
    rewrite ?app_nil_r, <- ?app_assoc; reflexivity.
Qed.


(** Events [postlude] adds: the [DimReduction] construction, with the
    caller's method, directions and seed, and possibly the plot. *)
Definition postlude_event {Data : Type} (a : Args Data) (e : Event) : Prop :=
  e = DimReductionInit (reduction_method a) (custom_directions a) (seed a) \/
  exists ps ls acs lg pcv, e = AnimateContour ps ls acs lg pcv.

Lemma postlude_events {Data : Type} (env : Env Data) (a : Args Data)
    (dm : DataModule Data) (m : Model) (w : World) :
  exists l, events (snd (postlude env a dm m w)) = events w ++ l /\
            Forall (postlude_event a) l.
Proof.
  unfold postlude.
  destruct (sample_frames env (model_optim_path m) (n_frames a)) as [|st sts].
  - exists []. rewrite app_nil_r. split; [reflexivity | constructor].
  - match goal with |- context [reduce ?s ?g ?t ?mt ?d ?sd] =>
      destruct (reduce s g t mt d sd) as [[rd|e] g'] end.
    + match goal with |- context [build ?ev ?c ?o ?mm ?dt ?p ?dr] =>
        destruct (build ev c o mm dt p dr) as [lg|e] end.
      * destruct (make_plot a); unfold emit, set_rng; cbn [snd events].
        -- eexists. rewrite <- app_assoc. split; [reflexivity|].
           constructor; [now left|]. constructor; [right; do 5 eexists; reflexivity|].
           constructor.
        -- eexists. split; [reflexivity|]. constructor; [now left | constructor].
      * unfold emit, set_rng; cbn [snd events].
        eexists. split; [reflexivity|]. constructor; [now left | constructor].
    + unfold emit, set_rng; cbn [snd events].
      eexists. split; [reflexivity|]. constructor; [now left | constructor].
Qed.

Lemma loss_landscape_anim_events {Data : Type} (env : Env Data) (a : Args Data) (w : World) :
  exists l, events (snd (loss_landscape_anim env a w))
            = events (snd (prelude env a w)) ++ l /\ Forall (postlude_event a) l.
Proof.
  unfold loss_landscape_anim.
  destruct (prelude env a w) as [[[dm m]|e] w1].
  - exact (postlude_events env a dm m w1).
  - exists []. rewrite app_nil_r. split; [reflexivity | constructor].
Qed.

(* ------------------------------------------------------------------------- *)
(** ** The driver: properties *)

(** C9: [loss_landscape_anim] calls [torch.manual_seed(s)] exactly when the
    [seed] argument is [Some s] with [s <> 0] (Python truthiness); every
    [DimReduction] it constructs receives the [seed] argument as given; and
    with [seed = 0] everything up to and including training and reloading the
    model happens exactly as with [seed = None]. *)
Theorem loss_landscape_anim_seeding {Data : Type} (env : Env Data) (a : Args Data)
    (w : World) :
  (forall s, In (ManualSeed s) (events (snd (loss_landscape_anim env a w))) <->
             In (ManualSeed s) (events w) \/ (seed a = Some s /\ s <> 0%Z)) /\
  (forall m d s, In (DimReductionInit m d s) (events (snd (loss_landscape_anim env a w))) ->
             In (DimReductionInit m d s) (events w) \/ s = seed a) /\
  prelude env (with_seed a (Some 0%Z)) w = prelude env (with_seed a None) w.
Proof.
  destruct (loss_landscape_anim_events env a w) as [l [Hl Hpost]].
  rewrite Hl, prelude_events.
  assert (Hsave : forall e, In e (if load_model a then []
          else [Saved (String.append (model_dirpath a) (model_filename a))]) ->
          e = Saved (String.append (model_dirpath a) (model_filename a))).
  { intros e He. destruct (load_model a); simpl in He; [destruct He | destruct He as [<-|[]]];
    reflexivity. }
  rewrite Forall_forall in Hpost. split; [|split].
  - intros s. rewrite !in_app_iff. split.
    + intros [[H | [H | H]] | H].
      * now left.
      * right. unfold seed_events in H. destruct (seed a) as [z|]; [|destruct H].
        unfold truthy_seed in H. destruct (Z.eqb z 0) eqn:Hz; simpl in H; [destruct H|].
        destruct H as [H|[]]. injection H as ->. split; [reflexivity|].
        now apply Z.eqb_neq.
      * apply Hsave in H. discriminate.
      * apply Hpost in H. destruct H as [H | (ps & ls & acs & lg & pcv & H)]; discriminate.
    + intros [H | [Hs Hnz]]; [now left; left|]. left; right; left.
      unfold seed_events. rewrite Hs. unfold truthy_seed.
      apply Z.eqb_neq in Hnz. rewrite Hnz. now left.
  - intros m d s. rewrite !in_app_iff. intros [[H | [H | H]] | H].
    + now left.
    + unfold seed_events in H. destruct (seed a) as [z|]; [|destruct H].
      destruct (truthy_seed (Some z)); simpl in H; [destruct H as [H|[]] | destruct H].
      discriminate.
    + apply Hsave in H. discriminate.
    + apply Hpost in H. destruct H as [H | (ps & ls & acs & lg & pcv & H)]; [|discriminate].
      injection H as _ _ ->. now right.
  - destruct a. reflexivity.
Qed.

(** C10: a call of [loss_landscape_anim] that returns normally returns, when
    [return_data] is set, the three lists [flat_w], [loss] and [accuracy] of
    the same non-empty list of sampled records (hence of equal length), and
    [None] otherwise. *)
Theorem loss_landscape_anim_return {Data : Type} (env : Env Data) (a : Args Data)
    (w w' : World) (res : option (list Vec * list R * list R)) :
  loss_landscape_anim env a w = (inl res, w') ->
  (return_data a = true ->
     exists mdl sampled, sampled = sample_frames env (model_optim_path mdl) (n_frames a) /\
       sampled <> [] /\
       res = Some (map flat_w sampled, map loss sampled, map accuracy sampled) /\
       length (map flat_w sampled) = length (map loss sampled) /\
       length (map loss sampled) = length (map accuracy sampled)) /\
  (return_data a = false -> res = None).
Proof.
  unfold loss_landscape_anim. intros H.
  destruct (prelude env a w) as [[[dm m]|e] w1]; [|discriminate].
  unfold postlude in H.
  destruct (sample_frames env (model_optim_path m) (n_frames a)) as [|st sts] eqn:Hs;
    [discriminate|].
  match type of H with context [reduce ?s ?g ?t ?mt ?d ?sd] =>
    destruct (reduce s g t mt d sd) as [[rd|e] g'] end; [|discriminate].
  match type of H with context [build ?ev ?c ?o ?mm ?dt ?p ?dr] =>
    destruct (build ev c o mm dt p dr) as [lg|e] end; [|discriminate].
  injection H as Hres _. subst res. split.
  - intros Hr. rewrite Hr. exists m, (st :: sts). split; [symmetry; exact Hs|].
    split; [discriminate|]. split; [reflexivity|].
    rewrite !length_map. split; reflexivity.
  - intros Hr. now rewrite Hr.
Qed.

(** Concrete collaborators for the driver example. *)
Definition env_ex : Env unit :=
  mkEnv (mkDataModule 2 2 tt)
    (fun _ _ _ g => (model_ex, (g + 1)%Z))
    (fun m _ _ _ g => (m, g))
    (fun l _ => l)
    svd_axes evaluate_sq cfg_ex.

Definition args_ex : Args unit :=
  mkArgs 1 None None "adam"%string Pca None "checkpoints/"%string "model.pt"%string
    0 false false true "sample.gif"%string 15 false 300 (Some 0%Z) true.

Lemma loss_landscape_anim_return_witness :
  exists res w', loss_landscape_anim env_ex args_ex (mkWorld 0 [] []) = (inl res, w') /\
  (return_data args_ex = true ->
     exists mdl sampled,
       sampled = sample_frames env_ex (model_optim_path mdl) (n_frames args_ex) /\
       sampled <> [] /\
       res = Some (map flat_w sampled, map loss sampled, map accuracy sampled) /\
       length (map flat_w sampled) = length (map loss sampled) /\
       length (map loss sampled) = length (map accuracy sampled)) /\
  (return_data args_ex = false -> res = None).
Proof.
  destruct (loss_landscape_anim env_ex args_ex (mkWorld 0 [] [])) as [[res|e] w'] eqn:E.
  - exists res, w'. split; [reflexivity|].
    exact (loss_landscape_anim_return env_ex args_ex _ w' res E).
  - exfalso. unfold loss_landscape_anim, prelude, postlude, build in E.
    simpl in E. discriminate.
Defined.

(* ------------------------------------------------------------------------- *)
(** ** Training, comparing and the driver's edge behaviour: lemmas *)

(** The paths [train_models] saves to, in loop order from index [i]. *)
Fixpoint train_paths (model_dirpath : string) (i : nat) (optimizers : list string)
    : list string :=
  match optimizers with
  | [] => []
  | o :: os => model_file_path model_dirpath o i :: train_paths model_dirpath (S i) os
  end.

Lemma load_files_eq (p : string) (w1 w2 : World) :
  files w1 = files w2 -> load p w1 = load p w2.
Proof. intros H. unfold load. now rewrite H. Qed.

Lemma load_save_same (m : Model) (p : string) (w : World) :
  load p (save m p w) = Some m.
Proof. unfold load, save, emit. simpl. now rewrite String.eqb_refl. Qed.

Lemma load_save_keep (m : Model) (p q : string) (w : World) :
  load q w <> None -> load q (save m p w) <> None.
Proof.
  unfold load, save, emit. simpl. destruct (String.eqb p q); [discriminate|tauto].
Qed.

Lemma seeding_files (s : option Z) (w : World) :
  files (match s with
         | Some z => if truthy_seed s then manual_seed z w else w
         | None => w
         end) = files w.
Proof. destruct s as [z|]; [destruct (truthy_seed (Some z))|]; reflexivity. Qed.

Lemma seeding_events (s : option Z) (w : World) :
  events (match s with
          | Some z => if truthy_seed s then manual_seed z w else w
          | None => w
          end) = events w ++ seed_events s.
Proof.
  unfold seed_events. destruct s as [z|]; [destruct (truthy_seed (Some z))|];
    simpl; rewrite ?app_nil_r; reflexivity.
Qed.

Section Training.
Context {Data : Type} (env : Env Data)
  (mlp : nat -> nat -> nat -> nat -> R -> string -> nat -> Z -> Model * Z)
  (dm : DataModule Data) (n_ep : nat) (lr : R) (dir : string) (gp : nat).

Lemma train_loop_events (i : nat) (opts : list string) (w : World) :
  events (train_loop env mlp dm n_ep lr dir gp i opts w)
  = events w ++ map Saved (train_paths dir i opts).
Proof.
  revert i w. induction opts as [|o os IH]; intros i w; simpl.
  - now rewrite app_nil_r.
  - destruct (mlp _ _ _ _ _ _ _ _) as [m g].
    destruct (fit env m dm n_ep gp g) as [m1 g1].
    rewrite IH. unfold save, emit, set_rng. simpl. now rewrite <- app_assoc.
Qed.

Lemma train_loop_keep (i : nat) (opts : list string) (w : World) (p : string) :
  load p w <> None -> load p (train_loop env mlp dm n_ep lr dir gp i opts w) <> None.
Proof.
  revert i w. induction opts as [|o os IH]; intros i w H; simpl; [exact H|].
  destruct (mlp _ _ _ _ _ _ _ _) as [m g].
  destruct (fit env m dm n_ep gp g) as [m1 g1].
  apply IH, load_save_keep. now rewrite (load_files_eq p _ w).
Qed.

Lemma train_loop_files (i : nat) (opts : list string) (w : World) (k : nat) (o : string) :
  nth_error opts k = Some o ->
  load (model_file_path dir o (i + k)) (train_loop env mlp dm n_ep lr dir gp i opts w)
  <> None.
Proof.
  revert i w k. induction opts as [|o' os IH]; intros i w k Hk; [destruct k; discriminate|].
  simpl. destruct (mlp _ _ _ _ _ _ _ _) as [m g].
  destruct (fit env m dm n_ep gp g) as [m1 g1].
  destruct k as [|k]; simpl in Hk.
  - injection Hk as ->. apply train_loop_keep. rewrite Nat.add_0_r, load_save_same.
    discriminate.
  - rewrite <- Nat.add_succ_comm. now apply IH.
Qed.

End Training.

Lemma reduce_custom_state (svd : list Vec -> SVD) (g : Z) (traj : list Vec)
    (d : option (list Vec)) (s : option Z) :
  snd (reduce svd g traj Custom d s) = g.
Proof.
  destruct traj as [|w0 tr]; [reflexivity|]. simpl.
  destruct d as [[|d1 [|d2 [|d3 ds]]]|]; try reflexivity.
  destruct (_ && _)%bool; reflexivity.
Qed.

Lemma reduce_path_length (svd : list Vec -> SVD) (g g' : Z) (traj : list Vec) (m : Method)
    (d : option (list Vec)) (s : option Z) (rd : Reduced) :
  reduce svd g traj m d s = (inl rd, g') -> length (path_2d rd) = length traj.
Proof.
  destruct traj as [|w0 tr]; [discriminate|]. unfold reduce.
  assert (Hp : forall d1 d2, length (project (center (w0 :: tr) (last (w0 :: tr) w0)) d1 d2)
                             = length (w0 :: tr)).
  { intros. unfold project, center. now rewrite !length_map. }
  destruct m.
  - destruct (Nat.ltb _ 2); [discriminate|].
    destruct (right_vecs _) as [d1 d2]. intros H. injection H as <- _. apply Hp.
  - destruct (Nat.ltb _ 2); [discriminate|].
    destruct (random_dirs _ _) as [[d1 d2] g1]. intros H. injection H as <- _. apply Hp.
  - destruct d as [[|d1 [|d2 [|d3 ds]]]|]; try discriminate.
    destruct (_ && _)%bool; [|discriminate]. intros H. injection H as <- _. apply Hp.
Qed.

Section Comparing.
Context {Data : Type} (env : Env Data) (dirs : option (list Vec)) (dir : string)
  (sd : option Z).

Lemma compare_loop_world (i : nat) (opts : list string) (w : World) :
  rng (snd (compare_loop env dirs dir sd i opts w)) = rng w /\
  files (snd (compare_loop env dirs dir sd i opts w)) = files w.
Proof.
  revert i w. induction opts as [|o os IH]; intros i w; simpl; [split; reflexivity|].
  destruct (load _ w) as [m|]; [|split; reflexivity].
  pose proof (reduce_custom_state (svd env) (rng (emit (DimReductionInit Custom dirs sd) w))
                (map flat_w (sample_frames env (model_optim_path m) 300)) dirs sd) as Hg.
  destruct (reduce _ _ _ _ _ _) as [[rd|e] g]; simpl in Hg; subst g.
  - destruct (IH (S i) (set_rng (rng (emit (DimReductionInit Custom dirs sd) w))
                                (emit (DimReductionInit Custom dirs sd) w))) as [H1 H2].
    destruct (compare_loop env dirs dir sd (S i) os _) as [[ps|e] w3];
      simpl in *; split; assumption.
  - split; reflexivity.
Qed.

Lemma compare_loop_ok (i : nat) (opts : list string) (w w' : World)
    (ps : list (string * list (R * R))) :
  compare_loop env dirs dir sd i opts w = (inl ps, w') ->
  map fst ps = opts /\
  forall k o, nth_error opts k = Some o -> load (model_file_path dir o (i + k)) w <> None.
Proof.
  revert i w w' ps. induction opts as [|o os IH]; intros i w w' ps H; simpl in H.
  - injection H as <- _. split; [reflexivity|]. intros [|k] o; discriminate.
  - destruct (load _ w) as [m|] eqn:Hl; [|discriminate].
    destruct (reduce _ _ _ _ _ _) as [[rd|e] g]; [|discriminate].
    destruct (compare_loop env dirs dir sd (S i) os _) as [[ps'|e] w3] eqn:Hc;
      [|discriminate].
    injection H as <- _. destruct (IH _ _ _ _ Hc) as [Hm Hf]. split; [simpl; now rewrite Hm|].
    intros [|k] o' Hk; simpl in Hk.
    + injection Hk as <-. rewrite Nat.add_0_r, Hl. discriminate.
    + rewrite <- Nat.add_succ_comm.
      specialize (Hf k o' Hk). now rewrite (load_files_eq _ _ w) in Hf by reflexivity.
Qed.

Lemma compare_loop_found (i : nat) (opts : list string) (w : World) :
  (forall k o, nth_error opts k = Some o -> load (model_file_path dir o (i + k)) w <> None) ->
  fst (compare_loop env dirs dir sd i opts w) <> inr ModelFileNotFound.
Proof.
  revert i w. induction opts as [|o os IH]; intros i w Hf; simpl; [discriminate|].
  destruct (load _ w) as [m|] eqn:Hl.
  - destruct (reduce _ _ _ _ _ _) as [[rd|e] g]; [|discriminate].
    assert (Hc : fst (compare_loop env dirs dir sd (S i) os
                        (set_rng g (emit (DimReductionInit Custom dirs sd) w)))
                 <> inr ModelFileNotFound).
    { apply IH. intros k o' Hk. rewrite (load_files_eq _ _ w) by reflexivity.
      rewrite Nat.add_succ_comm. exact (Hf (S k) o' Hk). }
    destruct (compare_loop env dirs dir sd (S i) os _) as [[ps|e] w3]; simpl in *;
      [discriminate | exact Hc].
  - exfalso. apply (Hf 0%nat o); [reflexivity|]. now rewrite Nat.add_0_r.
Qed.

End Comparing.

(** Collaborators for the training examples. *)
Definition mlp_ex (input_dim num_classes num_hidden_layers hidden_dim : nat)
    (learning_rate : R) (optimizer : string) (gpus : nat) (g : Z) : Model * Z :=
  (model_ex, (g + 1)%Z).

Definition dirs_ex : option (list Vec) := Some [[1; 0]; [0; 1]].

(** Model files of two optimizers saved under [checkpoints]. *)
Definition files_ex : list (string * Model) :=
  [(model_file_path "checkpoints" "adam" 0, model_ex);
   (model_file_path "checkpoints" "sgd" 1, model_ex)].

(* ------------------------------------------------------------------------- *)
(** ** Training, comparing and the driver's edge behaviour: properties *)

(** [train_models] calls [torch.manual_seed(seed)] when the seed is truthy
    and then saves exactly one model per optimizer, in order, the one at index
    [i] to [./{model_dirpath}/model_{optimizer}_{i}.pt]. *)
Theorem train_models_saves {Data : Type} (env : Env Data)
    (mlp : nat -> nat -> nat -> nat -> R -> string -> nat -> Z -> Model * Z)
    (n_ep : nat) (opts : list string) (lr : R) (dm : option (DataModule Data))
    (dir : string) (gp : nat) (sd : option Z) (w : World) :
  events (train_models env mlp n_ep opts lr dm dir gp sd w)
  = events w ++ seed_events sd ++ map Saved (train_paths dir 0 opts).
Proof.
  unfold train_models. rewrite train_loop_events, seeding_events. now rewrite <- app_assoc.
Qed.

(** After [train_models], the file [./{model_dirpath}/model_{optimizer}_{i}.pt]
    exists for every optimizer at index [i], and every file that existed
    before still exists. *)
Theorem train_models_files {Data : Type} (env : Env Data)
    (mlp : nat -> nat -> nat -> nat -> R -> string -> nat -> Z -> Model * Z)
    (n_ep : nat) (opts : list string) (lr : R) (dm : option (DataModule Data))
    (dir : string) (gp : nat) (sd : option Z) (w : World) (i : nat) (o : string) :
  nth_error opts i = Some o ->
  load (model_file_path dir o i) (train_models env mlp n_ep opts lr dm dir gp sd w) <> None /\
  (forall p, load p w <> None ->
             load p (train_models env mlp n_ep opts lr dm dir gp sd w) <> None).
Proof.
  intros Hi. unfold train_models. split.
  - exact (train_loop_files env mlp _ n_ep lr dir gp 0 opts _ i o Hi).
  - intros p Hp. apply train_loop_keep. now rewrite (load_files_eq p _ w) by apply seeding_files.
Qed.

Lemma train_models_files_witness :
  nth_error ["adam"; "sgd"]%string 1 = Some "sgd"%string /\
  load (model_file_path "checkpoints" "sgd" 1)
    (train_models env_ex mlp_ex 1 ["adam"; "sgd"]%string (/100) None "checkpoints" 0 None
       (mkWorld 0 [] [])) <> None /\
  (forall p, load p (mkWorld 0 [] []) <> None ->
     load p (train_models env_ex mlp_ex 1 ["adam"; "sgd"]%string (/100) None "checkpoints" 0
               None (mkWorld 0 [] [])) <> None).
Proof.
  split; [reflexivity|].
  apply (train_models_files env_ex mlp_ex 1 ["adam"; "sgd"]%string (/100) None "checkpoints"
           0 None (mkWorld 0 [] []) 1 "sgd"%string). reflexivity.
Defined.

(** A call of [compare_optimizers] that returns normally returns one pair per
    optimizer, labelled by the optimizers in their order, and every model file
    [./{model_dirpath}/model_{optimizer}_{i}.pt] existed. *)
Theorem compare_optimizers_ok {Data : Type} (env : Env Data) (opts : list string)
    (dirs : option (list Vec)) (dir : string) (sd : option Z) (w w' : World)
    (ps : list (string * list (R * R))) :
  compare_optimizers env opts dirs dir sd w = (inl ps, w') ->
  map fst ps = opts /\ length ps = length opts /\
  forall i o, nth_error opts i = Some o -> load (model_file_path dir o i) w <> None.
Proof.
  unfold compare_optimizers. intros H.
  destruct (compare_loop_ok env dirs dir sd 0 opts w w' ps H) as [Hm Hf].
  split; [exact Hm|]. split; [rewrite <- Hm; now rewrite length_map|]. exact Hf.
Qed.

Lemma compare_optimizers_ok_witness :
  exists ps w', compare_optimizers env_ex ["adam"; "sgd"]%string dirs_ex "checkpoints" None
                  (mkWorld 0 files_ex []) = (inl ps, w') /\
  map fst ps = ["adam"; "sgd"]%string /\ length ps = length ["adam"; "sgd"]%string /\
  forall i o, nth_error ["adam"; "sgd"]%string i = Some o ->
    load (model_file_path "checkpoints" o i) (mkWorld 0 files_ex []) <> None.
Proof.
  destruct (compare_optimizers env_ex ["adam"; "sgd"]%string dirs_ex "checkpoints" None
              (mkWorld 0 files_ex [])) as [[ps|e] w'] eqn:E.
  - exists ps, w'. split; [reflexivity|]. exact (compare_optimizers_ok env_ex _ _ _ _ _ _ _ E).
  - exfalso. unfold compare_optimizers, compare_loop, load, reduce, files_ex in E. simpl in E.
    discriminate.
Defined.

(** [compare_optimizers] never writes a model file and, its reductions being
    [custom], leaves the global RNG state as it found it, whether it returns
    or raises. *)
Theorem compare_optimizers_pure {Data : Type} (env : Env Data) (opts : list string)
    (dirs : option (list Vec)) (dir : string) (sd : option Z) (w : World) :
  files (snd (compare_optimizers env opts dirs dir sd w)) = files w /\
  rng (snd (compare_optimizers env opts dirs dir sd w)) = rng w.
Proof.
  unfold compare_optimizers. destruct (compare_loop_world env dirs dir sd 0 opts w).
  split; assumption.
Qed.

(** [compare_optimizers] run after [train_models] with the same optimizers and
    [model_dirpath] finds every model file: it never raises "Model file not
    found!". *)
Theorem train_then_compare_found {Data : Type} (env : Env Data)
    (mlp : nat -> nat -> nat -> nat -> R -> string -> nat -> Z -> Model * Z)
    (n_ep : nat) (opts : list string) (lr : R) (dm : option (DataModule Data))
    (dir : string) (gp : nat) (sd sd' : option Z) (dirs : option (list Vec)) (w : World) :
  fst (compare_optimizers env opts dirs dir sd'
         (train_models env mlp n_ep opts lr dm dir gp sd w)) <> inr ModelFileNotFound.
Proof.
  unfold compare_optimizers. apply compare_loop_found. intros k o Hk. simpl.
  unfold train_models. exact (train_loop_files env mlp _ n_ep lr dir gp 0 opts _ k o Hk).
Qed.

(** A call of [loss_landscape_anim] that returns normally adds, after the
    seeding and saving, the [DimReduction] construction and, when [make_plot]
    is set, one [animate_contour] call whose parameter, loss and accuracy
    steps are non-empty, of equal length, and with [return_data] the very
    loss and accuracy lists returned. *)
Theorem loss_landscape_anim_plot {Data : Type} (env : Env Data) (a : Args Data)
    (w w' : World) (res : option (list Vec * list R * list R)) :
  loss_landscape_anim env a w = (inl res, w') ->
  exists ps ls acs lg pcv,
    events w' = events (snd (prelude env a w))
                ++ DimReductionInit (reduction_method a) (custom_directions a) (seed a)
                :: (if make_plot a then [AnimateContour ps ls acs lg pcv] else []) /\
    length ps = length ls /\ length ls = length acs /\ ls <> [] /\
    (return_data a = true -> exists op, res = Some (op, ls, acs)).
Proof.
  unfold loss_landscape_anim. intros H.
  destruct (prelude env a w) as [[[dm m]|e] w1]; [|discriminate]. cbn [snd].
  unfold postlude in H.
  destruct (sample_frames env (model_optim_path m) (n_frames a)) as [|st sts];
    [discriminate|].
  destruct (reduce (svd env) _ _ _ _ _) as [[rd|e] g'] eqn:Hr; [|discriminate].
  destruct (build _ _ _ _ _ _ _) as [lg|e]; [|discriminate].
  apply reduce_path_length in Hr.
  exists (path_2d rd), (map loss (st :: sts)), (map accuracy (st :: sts)), lg, (pcvariances rd).
  injection H as <- <-. split.
  - destruct (make_plot a); unfold emit, set_rng; simpl; rewrite <- ?app_assoc; reflexivity.
  - rewrite Hr, !length_map. split; [reflexivity|]. split; [reflexivity|].
    split; [discriminate|]. intros Hd. rewrite Hd. eexists. reflexivity.
Qed.

Lemma loss_landscape_anim_plot_witness :
  exists res w', loss_landscape_anim env_ex (with_make_plot args_ex true) (mkWorld 0 [] [])
                 = (inl res, w') /\
  exists ps ls acs lg pcv,
    events w' = events (snd (prelude env_ex (with_make_plot args_ex true) (mkWorld 0 [] [])))
                ++ DimReductionInit (reduction_method (with_make_plot args_ex true))
                     (custom_directions (with_make_plot args_ex true))
                     (seed (with_make_plot args_ex true))
                :: (if make_plot (with_make_plot args_ex true)
                    then [AnimateContour ps ls acs lg pcv] else []) /\
    length ps = length ls /\ length ls = length acs /\ ls <> [] /\
    (return_data (with_make_plot args_ex true) = true -> exists op, res = Some (op, ls, acs)).
Proof.
  destruct (loss_landscape_anim env_ex (with_make_plot args_ex true) (mkWorld 0 [] []))
    as [[res|e] w'] eqn:E.
  - exists res, w'. split; [reflexivity|].
    exact (loss_landscape_anim_plot env_ex _ _ w' res E).
  - exfalso. unfold loss_landscape_anim, prelude, postlude, build in E.
    simpl in E. discriminate.
Defined.
